(** * pkg/cache: a key-value cache with per-item expiration

    Shallow embedding of [pkg/cache/cache.go].  The cache is a Go
    [map[string]Item] guarded by a [sync.RWMutex]; every method holds the
    lock for its whole body, so each method is modelled as one atomic
    function on the protected state.  The wall clock is an explicit
    argument: wherever the Go code calls [time.Now()], the model takes
    the instant that call returned. *)

From stdpp Require Import gmap strings list fin_maps.
From Stdlib Require Import ZArith Lia.

Local Open Scope Z_scope.

(** ** Time *)

(** Two's-complement reduction of an integer to a signed 64-bit value. *)
Definition wrap64 (z : Z) : Z := (z + 2 ^ 63) mod 2 ^ 64 - 2 ^ 63.

(** [time.Time] as the number of nanoseconds since the Unix epoch.  Go
    keeps seconds and nanoseconds apart, so a [Time] ranges far beyond
    what 64 bits of nanoseconds can hold; the model uses unbounded [Z]. *)
Definition Time : Type := Z.

(** [t.Add(d)]: [d] is a [time.Duration], an int64 count of nanoseconds. *)
Definition Add (t : Time) (d : Z) : Time := t + d.

(** [t.UnixNano()]: int64 arithmetic, wrapping when the instant is not
    representable (before 1678 or after 2262). *)
Definition UnixNano (t : Time) : Z := wrap64 t.

(** Instants whose nanosecond count fits an int64. *)
Definition representable (t : Time) : Prop := - 2 ^ 63 <= t < 2 ^ 63.

(** ** Data *)

Section CacheModel.

(** The dynamic payloads a caller may store; [interface{}] adds [nil]. *)
Context (V : Type).

Inductive iface : Type :=
  | nil
  | dyn (v : V).

(** [type Item struct { value interface{}; expiration int64 }] *)
Record Item : Type := mkItem {
  value : iface;
  expiration : Z
}.

(** [type Cache struct]: the fields [mutex] and [stopCleanup] carry no
    data of the sequential behaviour and are left out. *)
Record Cache : Type := mkCache {
  items : gmap string Item;
  defaultExpiration : Z;
  cleanupInterval : Z
}.

(** Assignment to the [items] field through the pointer receiver. *)
Definition withItems (c : Cache) (m : gmap string Item) : Cache :=
  mkCache m (defaultExpiration c) (cleanupInterval c).

(** [NewCache]: an empty map; the cleanup goroutine it starts is modelled
    by calls of [deleteExpiredItems]. *)
Definition NewCache (defaultExpiration cleanupInterval : Z) : Cache :=
  mkCache ∅ defaultExpiration cleanupInterval.

(** ** Operations *)

(** [if duration == 0 { duration = c.defaultExpiration }], the statement
    shared by [Set] (lines 49-51) and [Extend] (lines 92-94). *)
Definition resolved (c : Cache) (duration : Z) : Z :=
  if duration =? 0 then defaultExpiration c else duration.

(** [func (c *Cache) Set(key, value, duration)].  [Set] is a reserved
    word of Rocq, hence the underscore. *)
Definition Set_ (c : Cache) (key : string) (value : iface) (duration : Z)
    (now : Time) : Cache :=
  let duration := resolved c duration in
  let expiration :=
    if 0 <? duration then UnixNano (Add now duration) else 0 in
  withItems c (<[key := mkItem value expiration]> (items c)).

(** [func (c *Cache) Get(key) interface{}].  The method has a pointer
    receiver, so the model returns the cache state next to the result. *)
Definition Get (c : Cache) (key : string) (now : Time) : iface * Cache :=
  match items c !! key with
  | None => (nil, c)
  | Some item =>
      if 0 <? expiration item then
        if expiration item <? UnixNano now then (nil, c)
        else (value item, c)
      else (value item, c)
  end.

(** [func (c *Cache) Delete(key)] *)
Definition Delete (c : Cache) (key : string) : Cache :=
  withItems c (delete key (items c)).

(** [func (c *Cache) Extend(key, duration)] *)
Definition Extend (c : Cache) (key : string) (duration : Z) (now : Time)
    : Cache :=
  match items c !! key with
  | None => c
  | Some item =>
      let duration := resolved c duration in
      let item :=
        if 0 <? duration
        then mkItem (value item) (UnixNano (Add now duration))
        else item in
      withItems c (<[key := item]> (items c))
  end.

(** The test of the sweep loop:
    [item.expiration > 0 && time.Now().UnixNano() > item.expiration]. *)
Definition expired (item : Item) (now : Time) : bool :=
  (0 <? expiration item) && (expiration item <? UnixNano now).

(** The loop [for key, item := range c.items] of [deleteExpiredItems].
    [visit] is the order in which the runtime yields the entries; the
    only writes during the loop delete the entry being visited, so every
    entry present at the start is yielded once with its stored value.
    [time.Now()] is called in every iteration: [clock key] is the instant
    read while [key] is visited. *)
Fixpoint rangeLoop (clock : string -> Time) (visit : list (string * Item))
    (m : gmap string Item) : gmap string Item :=
  match visit with
  | [] => m
  | (key, item) :: rest =>
      rangeLoop clock rest
        (if expired item (clock key) then delete key m else m)
  end.

(** [func (c *Cache) deleteExpiredItems()] *)
Definition deleteExpiredItems (c : Cache) (clock : string -> Time) : Cache :=
  withItems c (rangeLoop clock (map_to_list (items c)) (items c)).

End CacheModel.

Arguments nil {V}.
Arguments dyn {V} v.
Arguments mkItem {V} value expiration.
Arguments value {V} _.
Arguments expiration {V} _.
Arguments mkCache {V} items defaultExpiration cleanupInterval.
Arguments items {V} _.
Arguments defaultExpiration {V} _.
Arguments cleanupInterval {V} _.
Arguments withItems {V} c m.
Arguments NewCache {V} defaultExpiration cleanupInterval.
Arguments resolved {V} c duration.
Arguments Set_ {V} c key value duration now.
Arguments Get {V} c key now.
Arguments Delete {V} c key.
Arguments Extend {V} c key duration now.
Arguments expired {V} item now.
Arguments rangeLoop {V} clock visit m.
Arguments deleteExpiredItems {V} c clock.

(** ** Sample caches *)

(** [NewCache(100*time.Millisecond, 50*time.Millisecond)] *)
Definition hosts : Cache string := NewCache 100000000 50000000.

(** A cache without default expiration holding one entry that was set at
    instant 0 for 5ns, so that it expires at instant 5. *)
Definition brief : Cache string := Set_ (NewCache 0 50) "a" (dyn "x") 5 0.

(** ** The cleanup goroutine, call sequences and the request handler *)

Section CacheSystem.

Context (V : Type).

(** What the [select] of the goroutine started by [startCleanupTimer]
    receives: a tick of the ticker, with the instants its sweep pass
    reads, or the value sent by [StopCleanup]. *)
Inductive Event : Type :=
  | Tick (clock : string -> Time)
  | Stop.

(** The goroutine's [for { select { ... } }] over the events it receives,
    in order.  A tick runs [deleteExpiredItems]; the stop signal stops
    the ticker and returns, so nothing after it is received.  When the
    events run out the goroutine is blocked in [select]. *)
Fixpoint cleanupLoop (events : list Event) (c : Cache V) : Cache V :=
  match events with
  | [] => c
  | Tick clock :: rest => cleanupLoop rest (deleteExpiredItems c clock)
  | Stop :: _ => c
  end.

(** [func (c *Cache) startCleanupTimer()].  [time.NewTicker] panics on an
    interval that is not positive: [None].  Otherwise the result is the
    cache as the goroutine leaves it after the given events. *)
Definition startCleanupTimer (c : Cache V) (events : list Event)
    : option (Cache V) :=
  if 0 <? cleanupInterval c then Some (cleanupLoop events c) else None.

(** One call on the cache.  Every method holds the mutex for its whole
    body, so what concurrent callers and the cleanup goroutine do to the
    cache is a sequence of such calls. *)
Inductive Call : Type :=
  | CallSet (key : string) (value : iface V) (duration : Z) (now : Time)
  | CallGet (key : string) (now : Time)
  | CallDelete (key : string)
  | CallExtend (key : string) (duration : Z) (now : Time)
  | CallSweep (clock : string -> Time).

Definition call (c : Cache V) (op : Call) : Cache V :=
  match op with
  | CallSet key value duration now => Set_ c key value duration now
  | CallGet key now => (Get c key now).2
  | CallDelete key => Delete c key
  | CallExtend key duration now => Extend c key duration now
  | CallSweep clock => deleteExpiredItems c clock
  end.

Definition calls (c : Cache V) (trace : list Call) : Cache V :=
  foldl call c trace.

(** The closure returned by [ProxyRequestHandler], up to the call of
    [proxy.ServeHTTP]: [V] is the type of [*httputil.ReverseProxy]
    values, [host] is [r.Host], [newProxy] the pointer that
    [httputil.NewSingleHostReverseProxy] returns, [tGet] and [tSet] the
    instants read by [Get] and [Set].  The result is the proxy that
    serves the request and the cache afterwards. *)
Definition ProxyRequestHandler (proxyCache : Cache V) (host : string)
    (newProxy : V) (tGet tSet : Time) : V * Cache V :=
  let (cached, proxyCache) := Get proxyCache host tGet in
  match cached with
  | nil => (newProxy, Set_ proxyCache host (dyn newProxy) 0 tSet)
  | dyn proxy => (proxy, proxyCache)
  end.

End CacheSystem.

Arguments cleanupLoop {V} events c.
Arguments startCleanupTimer {V} c events.
Arguments CallSet {V} key value duration now.
Arguments CallGet {V} key now.
Arguments CallDelete {V} key.
Arguments CallExtend {V} key duration now.
Arguments CallSweep {V} clock.
Arguments call {V} c op.
Arguments calls {V} c trace.
Arguments ProxyRequestHandler {V} proxyCache host newProxy tGet tSet.

(** [cache.NewCache(5*time.Minute, 30*time.Second)] of [main]. *)
Definition proxyCache : Cache string := NewCache 300000000000 30000000000.

(** A cache with two entries: ["a"] expires at instant 5, ["b"] at 9. *)
Definition pair : Cache string := Set_ brief "b" (dyn "y") 8 1.

(** ** Auxiliary facts *)

Section CacheFacts.

Context {V : Type}.
Implicit Types (c : Cache V) (key : string) (item : Item V) (v : iface V).
Implicit Types (m : gmap string (Item V)) (now t : Time).

Lemma UnixNano_representable t : representable t -> UnixNano t = t.
Proof.
  unfold representable, UnixNano, wrap64. intros Ht.
  rewrite Z.mod_small; lia.
Qed.

Lemma withItems_same c : withItems c (items c) = c.
Proof. by destruct c. Qed.

Lemma resolved_zero c : resolved c 0 = defaultExpiration c.
Proof. reflexivity. Qed.

Lemma resolved_nonzero c d : d <> 0 -> resolved c d = d.
Proof. unfold resolved. intros Hd. destruct (Z.eqb_spec d 0); [lia|done]. Qed.

Lemma resolved_default c :
  resolved c (defaultExpiration c) = defaultExpiration c.
Proof. unfold resolved. by destruct (defaultExpiration c =? 0). Qed.

Lemma resolved_eq_zero c d :
  resolved c d = 0 <-> d = 0 /\ defaultExpiration c = 0.
Proof. unfold resolved. destruct (Z.eqb_spec d 0); lia. Qed.

Lemma ltb_resolved_pos c d : 0 < resolved c d -> (0 <? resolved c d) = true.
Proof. apply Z.ltb_lt. Qed.

Lemma expired_true item now :
  expired item now = true <-> 0 < expiration item < UnixNano now.
Proof. unfold expired. rewrite andb_true_iff, !Z.ltb_lt. tauto. Qed.

Lemma expired_false item now :
  expired item now = false <->
  expiration item <= 0 \/ UnixNano now <= expiration item.
Proof. unfold expired. rewrite andb_false_iff, !Z.ltb_ge. tauto. Qed.

(** What [Get] returns, by the entry found. *)
Lemma Get_result c key now :
  (Get c key now).1 =
    match items c !! key with
    | None => nil
    | Some item => if expired item now then nil else value item
    end.
Proof.
  unfold Get, expired. destruct (items c !! key) as [item|]; [|done].
  destruct (0 <? expiration item); [|done].
  by destruct (expiration item <? UnixNano now).
Qed.

Lemma Get_state c key now : (Get c key now).2 = c.
Proof.
  unfold Get. destruct (items c !! key) as [item|]; [|done].
  destruct (0 <? expiration item); [|done].
  by destruct (expiration item <? UnixNano now).
Qed.

Lemma Set_lookup c key v d now :
  items (Set_ c key v d now) !! key =
    Some (mkItem v (if 0 <? resolved c d
                    then UnixNano (Add now (resolved c d)) else 0)).
Proof. unfold Set_. simpl. apply lookup_insert_eq. Qed.

(** *** The sweep loop *)

(** A visited entry that tests as expired is gone after the loop. *)
Lemma rangeLoop_removed clock visit m key item :
  (key, item) ∈ visit -> expired item (clock key) = true ->
  rangeLoop clock visit m !! key = None.
Proof.
  assert (Hgone : forall l m', m' !! key = None ->
            rangeLoop clock l m' !! key = None).
  { induction l as [|[k' it'] l IH]; intros m' Hm'; simpl; [done|].
    apply IH. destruct (expired it' (clock k')); [|done].
    rewrite lookup_delete. by case_decide. }
  revert m. induction visit as [|[k' it'] rest IH]; intros m Hin Hexp.
  - by apply elem_of_nil in Hin.
  - simpl. apply elem_of_cons in Hin as [Heq|Hin].
    + injection Heq as <- <-. rewrite Hexp.
      apply Hgone, lookup_delete_eq.
    + by apply IH.
Qed.

(** A key none of whose visits tests as expired keeps its entry. *)
Lemma rangeLoop_kept clock visit m key :
  (forall item, (key, item) ∈ visit -> expired item (clock key) = false) ->
  rangeLoop clock visit m !! key = m !! key.
Proof.
  revert m. induction visit as [|[k' it'] rest IH]; intros m Hall; [done|].
  simpl. rewrite IH.
  - destruct (expired it' (clock k')) eqn:Hexp; [|done].
    rewrite lookup_delete. case_decide as Hk; [|done]. subst k'.
    rewrite Hall in Hexp; [done|]. apply elem_of_cons. by left.
  - intros item Hin. apply Hall, elem_of_cons. by right.
Qed.

(** The loop does not depend on the order in which the runtime yields
    the entries of the map. *)
Lemma rangeLoop_lookup clock visit m key :
  visit ≡ₚ map_to_list m ->
  rangeLoop clock visit m !! key =
    match m !! key with
    | Some item => if expired item (clock key) then None else Some item
    | None => None
    end.
Proof.
  intros Hperm.
  assert (Hin : forall item, (key, item) ∈ visit <-> m !! key = Some item).
  { intros item. rewrite Hperm. apply elem_of_map_to_list. }
  destruct (m !! key) as [item|] eqn:Hm.
  - destruct (expired item (clock key)) eqn:Hexp.
    + apply rangeLoop_removed with item; [by apply Hin|done].
    + rewrite rangeLoop_kept; [done|].
      intros item' Hin'. apply Hin in Hin'. congruence.
  - rewrite rangeLoop_kept; [done|].
    intros item' Hin'. apply Hin in Hin'. congruence.
Qed.


Lemma deleteExpiredItems_lookup c clock key :
  items (deleteExpiredItems c clock) !! key =
    match items c !! key with
    | Some item => if expired item (clock key) then None else Some item
    | None => None
    end.
Proof. unfold deleteExpiredItems. simpl. by apply rangeLoop_lookup. Qed.

(** After any number of sweep passes an entry is either gone or as it
    was: a sweep never rewrites an entry. *)
Lemma sweeps_lookup (sweeps : list (string -> Time)) c key :
  items (foldl deleteExpiredItems c sweeps) !! key = None \/
  items (foldl deleteExpiredItems c sweeps) !! key = items c !! key.
Proof.
  revert c. induction sweeps as [|clock sweeps IH]; intros c; simpl.
  - by right.
  - destruct (IH (deleteExpiredItems c clock)) as [Hn|He]; [by left|].
    rewrite He, deleteExpiredItems_lookup.
    destruct (items c !! key) as [item|]; [|by left].
    destruct (expired item (clock key)); [by left|by right].
Qed.

End CacheFacts.

(** ** The behaviour of the operations *)

Section CacheSpec.

Context {V : Type}.
Implicit Types (c : Cache V) (key : string) (item : Item V) (v : iface V).
Implicit Types (now t : Time).

(** C1 (as amended): for a key present with a concrete (positive)
    expiration, [Get] returns nil at every instant strictly after the
    expiration, and returns the stored value at every instant up to and
    including the expiration itself. *)
Theorem Get_expiry_strict c key item now :
  items c !! key = Some item ->
  0 < expiration item ->
  (expiration item < UnixNano now -> (Get c key now).1 = nil) /\
  (UnixNano now <= expiration item -> (Get c key now).1 = value item).
Proof.
  intros Hitem Hpos. rewrite Get_result, Hitem. split; intros Hcmp.
  - assert (expired item now = true) as -> by (apply expired_true; lia).
    done.
  - assert (expired item now = false) as -> by (apply expired_false; lia).
    done.
Qed.

(** C2: after [Set] with a positive resolved duration at a clock reading
    [now] not before the epoch, [Get] at any representable instant
    strictly after [now + duration] returns nil, whatever sweep passes
    ran in between. *)
Theorem Get_after_ttl_absent c key v ttl now
    (sweeps : list (string -> Time)) t :
  0 < resolved c ttl ->
  0 <= now ->
  now + resolved c ttl < t ->
  t < 2 ^ 63 ->
  (Get (foldl deleteExpiredItems (Set_ c key v ttl now) sweeps) key t).1
    = nil.
Proof.
  intros Hpos Hnow Hlate Ht. rewrite Get_result.
  destruct (sweeps_lookup sweeps (Set_ c key v ttl now) key) as [->| ->];
    [done|].
  rewrite Set_lookup.
  rewrite ltb_resolved_pos by done.
  assert (expired (mkItem v (UnixNano (Add now (resolved c ttl)))) t = true)
    as ->; [|done].
  apply expired_true. simpl. unfold Add.
  rewrite !UnixNano_representable by (unfold representable; lia). lia.
Qed.

(** C3: [Set] with a positive duration stores the value with the
    expiration [now + duration], and a [Get] that follows at an instant
    strictly before that stored expiration returns the value. *)
Theorem Set_then_Get_before_expiry c key v ttl now t :
  0 < ttl ->
  UnixNano t < UnixNano (Add now ttl) ->
  items (Set_ c key v ttl now) !! key
    = Some (mkItem v (UnixNano (Add now ttl))) /\
  (Get (Set_ c key v ttl now) key t).1 = v.
Proof.
  intros Hpos Hearly.
  assert (Hlook : items (Set_ c key v ttl now) !! key
                  = Some (mkItem v (UnixNano (Add now ttl)))).
  { rewrite Set_lookup, resolved_nonzero by lia.
    by destruct (Z.ltb_spec 0 ttl); [|lia]. }
  split; [done|]. rewrite Get_result, Hlook.
  assert (expired (mkItem v (UnixNano (Add now ttl))) t = false) as ->;
    [|done].
  apply expired_false. simpl. lia.
Qed.

(** C4: in [Set] a zero duration is replaced by the default expiration.
    A positive resolved duration gives the entry the expiration
    [now + duration] (as the int64 nanosecond reading of that instant);
    a resolved duration of zero, which needs both the argument and the
    default to be zero, gives it the never-expire value 0, and [Get]
    then returns the value at every instant. *)
Theorem Set_expiration c key v ttl now :
  Set_ c key v 0 now = Set_ c key v (defaultExpiration c) now /\
  (resolved c ttl = 0 <-> ttl = 0 /\ defaultExpiration c = 0) /\
  (0 < resolved c ttl ->
     items (Set_ c key v ttl now) !! key
       = Some (mkItem v (UnixNano (Add now (resolved c ttl)))) /\
     (representable (now + resolved c ttl) ->
        items (Set_ c key v ttl now) !! key
          = Some (mkItem v (now + resolved c ttl)))) /\
  (resolved c ttl = 0 ->
     items (Set_ c key v ttl now) !! key = Some (mkItem v 0) /\
     forall later, (Get (Set_ c key v ttl now) key later).1 = v).
Proof.
  split; [|split; [|split]].
  - unfold Set_. by rewrite resolved_zero, resolved_default.
  - apply resolved_eq_zero.
  - intros Hpos.
    assert (Hlook : items (Set_ c key v ttl now) !! key
              = Some (mkItem v (UnixNano (Add now (resolved c ttl))))).
    { by rewrite Set_lookup, ltb_resolved_pos. }
    split; [done|]. intros Hrep.
    rewrite Hlook. unfold Add. by rewrite UnixNano_representable.
  - intros Hzero.
    assert (Hlook : items (Set_ c key v ttl now) !! key = Some (mkItem v 0)).
    { by rewrite Set_lookup, Hzero. }
    split; [done|]. intros later. by rewrite Get_result, Hlook.
Qed.

(** C5: on a key that is present, [Extend] replaces a zero duration by
    the default expiration; a positive resolved duration moves the
    expiration to [now + duration] and keeps the value, and a resolved
    duration of zero leaves the entry, expiration included, as it was. *)
Theorem Extend_present c key item ttl now :
  items c !! key = Some item ->
  Extend c key 0 now = Extend c key (defaultExpiration c) now /\
  (0 < resolved c ttl ->
     items (Extend c key ttl now) !! key
       = Some (mkItem (value item) (UnixNano (Add now (resolved c ttl)))) /\
     (representable (now + resolved c ttl) ->
        items (Extend c key ttl now) !! key
          = Some (mkItem (value item) (now + resolved c ttl)))) /\
  (resolved c ttl = 0 ->
     Extend c key ttl now = c /\
     items (Extend c key ttl now) !! key = Some item).
Proof.
  intros Hitem. unfold Extend. rewrite Hitem. split; [|split].
  - by rewrite resolved_zero, resolved_default.
  - intros Hpos. rewrite ltb_resolved_pos by done. simpl.
    rewrite lookup_insert_eq. split; [done|]. intros Hrep.
    unfold Add. by rewrite UnixNano_representable.
  - intros ->. simpl. rewrite insert_id by done.
    by rewrite withItems_same.
Qed.

(** C6 (as amended): one sweep pass keeps exactly the entries that are
    not both concrete (positive expiration) and strictly before the
    instant read when they are visited; an entry whose expiration equals
    that instant stays.  Kept entries are unchanged, and calls of [Get]
    before the pass make no difference. *)
Theorem deleteExpiredItems_strict c clock :
  items (deleteExpiredItems c clock) =
    filter (fun kv => ~ (0 < expiration kv.2 < UnixNano (clock kv.1)))
           (items c) /\
  forall key t,
    deleteExpiredItems (Get c key t).2 clock = deleteExpiredItems c clock.
Proof.
  split.
  - apply map_eq. intros key. rewrite deleteExpiredItems_lookup.
    destruct (items c !! key) as [item|] eqn:Hitem.
    + destruct (expired item (clock key)) eqn:Hexp; symmetry.
      * apply map_lookup_filter_None. right. intros item' Hitem'.
        simpl. apply expired_true in Hexp.
        replace item' with item by congruence. tauto.
      * apply map_lookup_filter_Some. split; [done|]. simpl.
        apply expired_false in Hexp. lia.
    + symmetry. apply map_lookup_filter_None. by left.
  - intros key t. by rewrite Get_state.
Qed.

(** C7: after [Delete] the key has no entry and [Get] returns nil, other
    keys keep their entries, and on a key without entry [Delete] returns
    the cache as it was.  [Delete] is a total function: there is no
    failing case. *)
Theorem Delete_removes c key now :
  items (Delete c key) !! key = None /\
  (Get (Delete c key) key now).1 = nil /\
  (forall key', key' <> key ->
     items (Delete c key) !! key' = items c !! key') /\
  (items c !! key = None -> Delete c key = c).
Proof.
  assert (Hgone : items (Delete c key) !! key = None)
    by apply lookup_delete_eq.
  split; [done|]. split; [by rewrite Get_result, Hgone|]. split.
  - intros key' Hne. unfold Delete. simpl. by apply lookup_delete_ne.
  - intros Habsent. unfold Delete. rewrite delete_id by done.
    apply withItems_same.
Qed.

(** C8: on a key without entry [Extend] returns the cache as it was,
    whatever the duration: no entry is created and [Get] still returns
    nil. *)
Theorem Extend_absent c key ttl now t :
  items c !! key = None ->
  Extend c key ttl now = c /\
  items (Extend c key ttl now) !! key = None /\
  (Get (Extend c key ttl now) key t).1 = nil.
Proof.
  intros Habsent.
  assert (Hsame : Extend c key ttl now = c).
  { unfold Extend. by rewrite Habsent. }
  rewrite Hsame. split; [done|]. split; [done|].
  by rewrite Get_result, Habsent.
Qed.

(** C9: [Get] returns the cache as it received it, also when the entry
    is past its expiration: the stale entry is still there afterwards.
    [Set] and [Extend] never remove a key either, so keys leave the map
    only through [Delete] and the sweep pass. *)
Theorem Get_read_only c key now :
  (Get c key now).2 = c /\
  (forall item,
     items c !! key = Some item -> expired item now = true ->
     (Get c key now).1 = nil /\
     items (Get c key now).2 !! key = Some item) /\
  (forall key' v d t,
     is_Some (items c !! key') ->
     is_Some (items (Set_ c key v d t) !! key') /\
     is_Some (items (Extend c key d t) !! key')).
Proof.
  split; [apply Get_state|]. split.
  - intros item Hitem Hexp. rewrite Get_state, Get_result, Hitem, Hexp.
    done.
  - intros key' v d t Hsome. split.
    + unfold Set_. simpl. rewrite lookup_insert. by case_decide.
    + unfold Extend. destruct (items c !! key) as [item|]; [|done].
      simpl. rewrite lookup_insert. by case_decide.
Qed.

(** C10: a strictly negative duration is not replaced by the default
    expiration and, not being positive, leaves the expiration at the
    never-expire value 0: [Get] returns the value at every instant. *)
Theorem Set_negative_never_expires c key v ttl now :
  ttl < 0 ->
  resolved c ttl = ttl /\
  items (Set_ c key v ttl now) !! key = Some (mkItem v 0) /\
  forall later, (Get (Set_ c key v ttl now) key later).1 = v.
Proof.
  intros Hneg.
  assert (Hres : resolved c ttl = ttl) by (apply resolved_nonzero; lia).
  assert (Hlook : items (Set_ c key v ttl now) !! key = Some (mkItem v 0)).
  { rewrite Set_lookup, Hres. by destruct (Z.ltb_spec 0 ttl); [lia|]. }
  split; [done|]. split; [done|].
  intros later. by rewrite Get_result, Hlook.
Qed.

End CacheSpec.

(** ** The theorems at concrete caches *)

(** At instant 6 the entry of [brief] (expiration 5) reads as absent; at
    instant 5 it still reads as ["x"]. *)
Lemma Get_expiry_strict_witness :
  items brief !! "a" = Some (mkItem (dyn "x") 5) /\
  (Get brief "a" 6).1 = nil /\
  (Get brief "a" 5).1 = dyn "x".
Proof.
  assert (Hitem : items brief !! "a" = Some (mkItem (dyn "x") 5))
    by (vm_compute; reflexivity).
  assert (Hpos : 0 < expiration (mkItem (dyn "x") 5)) by (simpl; lia).
  split; [exact Hitem|]. split.
  - apply (proj1 (Get_expiry_strict brief "a" _ 6 Hitem Hpos)).
    vm_compute; reflexivity.
  - apply (proj2 (Get_expiry_strict brief "a" _ 5 Hitem Hpos)).
    vm_compute; discriminate.
Defined.

(** C1 as stated fails at the expiration instant itself: [brief] holds
    ["a"] with expiration 5, and [Get] at instant 5 returns ["x"]. *)
Lemma Get_at_expiry_returns_value :
  ~ (forall (c : Cache string) (key : string) (item : Item string)
            (now : Time),
       items c !! key = Some item ->
       0 < expiration item ->
       expiration item <= UnixNano now ->
       (Get c key now).1 = nil).
Proof.
  intros Hclaim.
  assert (Hitem : items brief !! "a" = Some (mkItem (dyn "x") 5))
    by (vm_compute; reflexivity).
  specialize (Hclaim brief "a" _ 5 Hitem).
  assert (Hget : (Get brief "a" 5).1 = dyn "x") by (vm_compute; reflexivity).
  rewrite Hget in Hclaim.
  assert (Hpos : 0 < expiration (mkItem (dyn "x") 5)) by (simpl; lia).
  assert (Hdue : expiration (mkItem (dyn "x") 5) <= UnixNano 5)
    by (vm_compute; discriminate).
  specialize (Hclaim Hpos Hdue). discriminate Hclaim.
Qed.

(** The scenario of a 100ms default: set at 1s, swept at 1.05s and at
    1.11s, read at 1.12s. *)
Lemma Get_after_ttl_absent_witness :
  0 < resolved hosts 0 /\
  0 <= 1000000000 /\
  1000000000 + resolved hosts 0 < 1120000000 /\
  1120000000 < 2 ^ 63 /\
  (Get (foldl deleteExpiredItems
          (Set_ hosts "a" (dyn "x") 0 1000000000)
          [fun _ => 1050000000; fun _ => 1110000000])
       "a" 1120000000).1 = nil.
Proof.
  assert (H1 : 0 < resolved hosts 0) by (vm_compute; reflexivity).
  assert (H2 : 0 <= 1000000000) by lia.
  assert (H3 : 1000000000 + resolved hosts 0 < 1120000000)
    by (vm_compute; reflexivity).
  assert (H4 : 1120000000 < 2 ^ 63) by lia.
  repeat (split; [assumption|]).
  exact (Get_after_ttl_absent hosts "a" (dyn "x") 0 1000000000
           [fun _ => 1050000000; fun _ => 1110000000] 1120000000
           H1 H2 H3 H4).
Defined.

(** Set for one hour at 1s, read one nanosecond before the expiration. *)
Lemma Set_then_Get_before_expiry_witness :
  0 < 3600000000000 /\
  UnixNano 3600999999999 < UnixNano (Add 1000000000 3600000000000) /\
  items (Set_ hosts "b" (dyn "y") 3600000000000 1000000000) !! "b"
    = Some (mkItem (dyn "y") (UnixNano (Add 1000000000 3600000000000))) /\
  (Get (Set_ hosts "b" (dyn "y") 3600000000000 1000000000)
       "b" 3600999999999).1 = dyn "y".
Proof.
  assert (H1 : 0 < 3600000000000) by lia.
  assert (H2 : UnixNano 3600999999999
               < UnixNano (Add 1000000000 3600000000000))
    by (vm_compute; reflexivity).
  repeat (split; [assumption|]).
  exact (Set_then_Get_before_expiry hosts "b" (dyn "y") 3600000000000
           1000000000 3600999999999 H1 H2).
Defined.

(** With the 100ms default a zero duration expires at [now + 100ms];
    without default it never expires. *)
Lemma Set_expiration_witness :
  items (Set_ hosts "a" (dyn "x") 0 1000000000) !! "a"
    = Some (mkItem (dyn "x") 1100000000) /\
  (Get (Set_ (NewCache 0 50) "a" (dyn "x") 0 1000000000)
       "a" (2 ^ 62)).1 = dyn "x".
Proof.
  split.
  - destruct (Set_expiration hosts "a" (dyn "x") 0 1000000000)
      as (_ & _ & Hpos & _).
    destruct Hpos as [_ Hrep]; [vm_compute; reflexivity|].
    apply Hrep. unfold representable. vm_compute.
    split; [discriminate | reflexivity].
  - destruct (Set_expiration (NewCache 0 50) "a" (dyn "x") 0 1000000000)
      as (_ & _ & _ & Hzero).
    destruct Hzero as [_ Hget]; [vm_compute; reflexivity|].
    apply Hget.
Defined.

(** Set for one hour, then extended to two hours one second later. *)
Lemma Extend_present_witness :
  items (Set_ hosts "b" (dyn "y") 3600000000000 1000000000) !! "b"
    = Some (mkItem (dyn "y") 3601000000000) /\
  items (Extend (Set_ hosts "b" (dyn "y") 3600000000000 1000000000)
           "b" 7200000000000 2000000000) !! "b"
    = Some (mkItem (dyn "y") 7202000000000) /\
  Extend brief "a" 0 3 = brief.
Proof.
  assert (Hitem :
    items (Set_ hosts "b" (dyn "y") 3600000000000 1000000000) !! "b"
      = Some (mkItem (dyn "y") 3601000000000))
    by (vm_compute; reflexivity).
  split; [exact Hitem|]. split.
  - destruct (Extend_present _ "b" _ 7200000000000 2000000000 Hitem)
      as (_ & Hpos & _).
    destruct Hpos as [_ Hrep]; [vm_compute; reflexivity|].
    apply Hrep. unfold representable. vm_compute.
    split; [discriminate | reflexivity].
  - assert (Hbrief : items brief !! "a" = Some (mkItem (dyn "x") 5))
      by (vm_compute; reflexivity).
    destruct (Extend_present brief "a" _ 0 3 Hbrief) as (_ & _ & Hzero).
    destruct Hzero as [Hsame _]; [vm_compute; reflexivity|].
    exact Hsame.
Defined.

(** C6 as stated fails for an entry that expires at the instant of the
    pass: swept at instant 5, [brief] keeps ["a"] (expiration 5). *)
Lemma deleteExpiredItems_keeps_at_expiry :
  ~ (forall (c : Cache string) (now : Time) (key : string)
            (item : Item string),
       items c !! key = Some item ->
       0 < expiration item ->
       expiration item <= UnixNano now ->
       items (deleteExpiredItems c (fun _ => now)) !! key = None).
Proof.
  intros Hclaim.
  assert (Hitem : items brief !! "a" = Some (mkItem (dyn "x") 5))
    by (vm_compute; reflexivity).
  specialize (Hclaim brief 5 "a" _ Hitem).
  assert (Hkept : items (deleteExpiredItems brief (fun _ => 5)) !! "a"
                  = Some (mkItem (dyn "x") 5)) by (vm_compute; reflexivity).
  rewrite Hkept in Hclaim.
  assert (Hpos : 0 < expiration (mkItem (dyn "x") 5)) by (simpl; lia).
  assert (Hdue : expiration (mkItem (dyn "x") 5) <= UnixNano 5)
    by (vm_compute; discriminate).
  specialize (Hclaim Hpos Hdue). discriminate Hclaim.
Qed.

(** Deleting a key that was never set. *)
Lemma Delete_removes_witness :
  (Get (Delete brief "a") "a" 1).1 = nil /\ Delete brief "b" = brief.
Proof.
  split.
  - exact (proj1 (proj2 (Delete_removes brief "a" 1))).
  - apply (proj2 (proj2 (proj2 (Delete_removes brief "b" 1)))).
    vm_compute; reflexivity.
Defined.

(** Extending a key that was never set. *)
Lemma Extend_absent_witness :
  items hosts !! "a" = None /\
  Extend hosts "a" 7200000000000 1000000000 = hosts /\
  items (Extend hosts "a" 7200000000000 1000000000) !! "a" = None /\
  (Get (Extend hosts "a" 7200000000000 1000000000) "a" 1000000001).1 = nil.
Proof.
  assert (Habsent : items hosts !! "a" = None) by (vm_compute; reflexivity).
  split; [exact Habsent|].
  exact (Extend_absent hosts "a" 7200000000000 1000000000 1000000001
           Habsent).
Defined.

(** Reading the stale entry of [brief] at instant 9 leaves it in place. *)
Lemma Get_read_only_witness :
  (Get brief "a" 9).1 = nil /\
  items (Get brief "a" 9).2 !! "a" = Some (mkItem (dyn "x") 5).
Proof.
  apply (proj1 (proj2 (Get_read_only brief "a" 9))).
  - vm_compute; reflexivity.
  - vm_compute; reflexivity.
Defined.

(** A duration of -1ns under a 100ms default. *)
Lemma Set_negative_never_expires_witness :
  -1 < 0 /\
  items (Set_ hosts "a" (dyn "x") (-1) 1000000000) !! "a"
    = Some (mkItem (dyn "x") 0) /\
  (Get (Set_ hosts "a" (dyn "x") (-1) 1000000000) "a" (2 ^ 62)).1 = dyn "x".
Proof.
  assert (Hneg : -1 < 0) by lia.
  split; [exact Hneg|].
  destruct (Set_negative_never_expires hosts "a" (dyn "x") (-1)
              1000000000 Hneg) as (_ & Hlook & Hget).
  split; [exact Hlook | apply Hget].
Defined.

(** ** Further laws of the operations *)

Section CacheLaws.

Context {V : Type}.
Implicit Types (c : Cache V) (key : string) (item : Item V) (v : iface V).
Implicit Types (now t : Time) (clock : string -> Time).

(** Two caches with the same fields are the same cache. *)
Lemma Cache_eq c1 c2 :
  items c1 = items c2 ->
  defaultExpiration c1 = defaultExpiration c2 ->
  cleanupInterval c1 = cleanupInterval c2 ->
  c1 = c2.
Proof. destruct c1, c2. simpl. by intros -> -> ->. Qed.

Lemma Extend_lookup_ne c key key' d now :
  key' <> key -> items (Extend c key d now) !! key' = items c !! key'.
Proof.
  intros Hne. unfold Extend. destruct (items c !! key); [|done].
  simpl. by rewrite lookup_insert_ne.
Qed.

Lemma expired_later item t1 t2 :
  UnixNano t1 <= UnixNano t2 -> expired item t1 = true ->
  expired item t2 = true.
Proof. rewrite !expired_true. lia. Qed.

(** X1: [Set] overwrites without looking at the entry it replaces: of
    two writes to one key only the second leaves a trace, and writes to
    different keys can be swapped. *)
Theorem Set_last_write_wins c key v1 d1 t1 v2 d2 t2 :
  Set_ (Set_ c key v1 d1 t1) key v2 d2 t2 = Set_ c key v2 d2 t2 /\
  (forall key', key' <> key ->
     Set_ (Set_ c key v1 d1 t1) key' v2 d2 t2
     = Set_ (Set_ c key' v2 d2 t2) key v1 d1 t1).
Proof.
  split.
  - unfold Set_, resolved, withItems. simpl. by rewrite insert_insert_eq.
  - intros key' Hne. unfold Set_, resolved, withItems. simpl.
    by rewrite insert_insert_ne.
Qed.

(** X2: writing, extending or deleting one key changes what [Get]
    returns for no other key. *)
Theorem Get_other_key c key key' v d now t :
  key' <> key ->
  (Get (Set_ c key v d now) key' t).1 = (Get c key' t).1 /\
  (Get (Extend c key d now) key' t).1 = (Get c key' t).1 /\
  (Get (Delete c key) key' t).1 = (Get c key' t).1.
Proof.
  intros Hne. rewrite !Get_result. split; [|split].
  - unfold Set_. simpl. by rewrite lookup_insert_ne.
  - by rewrite Extend_lookup_ne.
  - unfold Delete. simpl. by rewrite lookup_delete_ne.
Qed.

(** X3: [Delete] undoes [Set]: deleting a key just set gives the cache
    that deleting it before the [Set] would have given, which is the
    cache itself when the key had no entry. *)
Theorem Delete_after_Set c key v d now :
  Delete (Set_ c key v d now) key = Delete c key /\
  (items c !! key = None -> Delete (Set_ c key v d now) key = c).
Proof.
  assert (Hdel : Delete (Set_ c key v d now) key = Delete c key).
  { unfold Delete, Set_, withItems. simpl. by rewrite delete_insert_eq. }
  split; [done|]. intros Habsent. rewrite Hdel. unfold Delete.
  rewrite delete_id by done. apply withItems_same.
Qed.

(** X4: a stored nil cannot be told from a missing key: after
    [Set(key, nil, d)] the key has an entry, yet [Get] returns nil at
    every instant, as it does after [Delete]. *)
Theorem Set_nil_reads_absent c key d now t :
  is_Some (items (Set_ c key nil d now) !! key) /\
  (Get (Set_ c key nil d now) key t).1 = nil /\
  (Get (Set_ c key nil d now) key t).1 = (Get (Delete c key) key t).1.
Proof.
  assert (Hget : (Get (Set_ c key nil d now) key t).1 = nil).
  { rewrite Get_result, Set_lookup. simpl.
    by destruct (expired _ t). }
  split; [rewrite Set_lookup; by eexists|]. split; [done|].
  rewrite Hget, Get_result. unfold Delete. simpl.
  by rewrite lookup_delete_eq.
Qed.

(** X5: [Extend] does not look at the old expiration: with a positive
    resolved duration it makes the stored value readable up to the new
    expiration, also for an entry that had already expired and was not
    yet swept. *)
Theorem Extend_revives c key item ttl now t :
  items c !! key = Some item ->
  0 < resolved c ttl ->
  UnixNano t <= UnixNano (Add now (resolved c ttl)) ->
  (Get (Extend c key ttl now) key t).1 = value item.
Proof.
  intros Hitem Hpos Hlive. rewrite Get_result. unfold Extend.
  rewrite Hitem, ltb_resolved_pos by done. simpl.
  rewrite lookup_insert_eq.
  assert (expired (mkItem (value item)
                     (UnixNano (Add now (resolved c ttl)))) t = false)
    as ->; [|done].
  apply expired_false. simpl. lia.
Qed.

(** X6: without a write, a key that reads as absent stays absent: if
    [Get] returns nil at one clock reading, it returns nil at every
    later reading, whatever sweep passes run in between. *)
Theorem Get_absent_stays_absent c key t1 t2
    (sweeps : list (string -> Time)) :
  (Get c key t1).1 = nil ->
  UnixNano t1 <= UnixNano t2 ->
  (Get (foldl deleteExpiredItems c sweeps) key t2).1 = nil.
Proof.
  intros Hnil Hle. rewrite Get_result in Hnil. rewrite Get_result.
  destruct (sweeps_lookup sweeps c key) as [->| ->]; [done|].
  destruct (items c !! key) as [item|]; [|done].
  destruct (expired item t1) eqn:Hexp.
  - by rewrite (expired_later item t1 t2).
  - rewrite Hnil. by destruct (expired item t2).
Qed.

(** X7: a sweep pass is invisible to readers: at any clock reading not
    before the one the pass took at the key, [Get] returns the same
    after the pass as without it. *)
Theorem Get_after_sweep c clock key t :
  UnixNano (clock key) <= UnixNano t ->
  (Get (deleteExpiredItems c clock) key t).1 = (Get c key t).1.
Proof.
  intros Hle. rewrite !Get_result, deleteExpiredItems_lookup.
  destruct (items c !! key) as [item|]; [|done].
  destruct (expired item (clock key)) eqn:Hexp; [|done].
  by rewrite (expired_later item (clock key) t).
Qed.

(** X8: a later sweep pass makes an earlier one redundant: sweeping
    twice, the second time at readings not before the first, gives the
    cache that the second pass alone gives.  In particular a pass
    repeated at the same readings changes nothing. *)
Theorem deleteExpiredItems_twice c clock1 clock2 :
  (forall key, UnixNano (clock1 key) <= UnixNano (clock2 key)) ->
  deleteExpiredItems (deleteExpiredItems c clock1) clock2
  = deleteExpiredItems c clock2.
Proof.
  intros Hle. apply Cache_eq; [|done|done].
  apply map_eq. intros key. rewrite !deleteExpiredItems_lookup.
  destruct (items c !! key) as [item|]; [|done].
  destruct (expired item (clock1 key)) eqn:Hexp; [|done].
  by rewrite (expired_later item (clock1 key) (clock2 key)).
Qed.


End CacheLaws.

(** ** The cleanup goroutine *)

Section CleanupLaws.

Context {V : Type}.
Implicit Types (c : Cache V) (key : string) (item : Item V).
Implicit Types (events : list Event).

Lemma deleteExpiredItems_subseteq c clock :
  items (deleteExpiredItems c clock) ⊆ items c.
Proof.
  apply map_subseteq_spec. intros key item.
  rewrite deleteExpiredItems_lookup.
  destruct (items c !! key) as [item'|]; [|done].
  by destruct (expired item' (clock key)).
Qed.

Lemma cleanupLoop_subseteq events c :
  items (cleanupLoop events c) ⊆ items c.
Proof.
  revert c. induction events as [|[clock|] rest IH]; intros c; simpl;
    [done| |done].
  etrans; [apply IH|apply deleteExpiredItems_subseteq].
Qed.

Lemma cleanupLoop_config events c :
  defaultExpiration (cleanupLoop events c) = defaultExpiration c /\
  cleanupInterval (cleanupLoop events c) = cleanupInterval c.
Proof.
  revert c. induction events as [|[clock|] rest IH]; intros c; simpl;
    [done| |done].
  destruct (IH (deleteExpiredItems c clock)) as [-> ->]. done.
Qed.

Lemma cleanupLoop_kept events c key item :
  items c !! key = Some item ->
  (forall clock, Tick clock ∈ events -> expired item (clock key) = false) ->
  items (cleanupLoop events c) !! key = Some item.
Proof.
  revert c. induction events as [|[clock|] rest IH]; intros c Hitem Hlive;
    simpl; [done| |done].
  apply IH.
  - rewrite deleteExpiredItems_lookup, Hitem, Hlive; [done|].
    apply elem_of_cons. by left.
  - intros clock' Hin. apply Hlive, elem_of_cons. by right.
Qed.

Lemma cleanupLoop_Stop pre post c :
  cleanupLoop (pre ++ Stop :: post) c = cleanupLoop pre c.
Proof.
  revert c. induction pre as [|[clock|] pre IH]; intros c; simpl; [done| |done].
  apply IH.
Qed.

(** X10: after the stop signal the goroutine does nothing more: the
    events that follow it, ticks included, leave no trace in the cache. *)
Theorem startCleanupTimer_after_Stop c (pre post : list Event) :
  startCleanupTimer c (pre ++ Stop :: post) = startCleanupTimer c pre.
Proof. unfold startCleanupTimer. by rewrite cleanupLoop_Stop. Qed.

(** X11: starting the cleanup timer panics exactly when the cleanup
    interval is not positive.  Otherwise the goroutine, whatever events
    it receives, only takes entries away: it adds and rewrites none,
    leaves the configuration alone, and keeps every entry that no tick
    finds expired, so in particular every entry that never expires. *)
Theorem startCleanupTimer_effect c events :
  (cleanupInterval c <= 0 -> startCleanupTimer c events = None) /\
  (0 < cleanupInterval c ->
   exists c',
     startCleanupTimer c events = Some c' /\
     items c' ⊆ items c /\
     defaultExpiration c' = defaultExpiration c /\
     cleanupInterval c' = cleanupInterval c /\
     (forall key item,
        items c !! key = Some item ->
        (forall clock, Tick clock ∈ events ->
                       expired item (clock key) = false) ->
        items c' !! key = Some item) /\
     (forall key item,
        items c !! key = Some item -> expiration item <= 0 ->
        items c' !! key = Some item)).
Proof.
  unfold startCleanupTimer. split; intros Hint.
  - by destruct (Z.ltb_spec 0 (cleanupInterval c)); [lia|].
  - destruct (Z.ltb_spec 0 (cleanupInterval c)); [|lia].
    exists (cleanupLoop events c). split; [done|].
    split; [apply cleanupLoop_subseteq|].
    destruct (cleanupLoop_config events c) as [Hd Hi].
    split; [done|]. split; [done|]. split.
    + intros key item. apply cleanupLoop_kept.
    + intros key item Hitem Hnever. apply cleanupLoop_kept; [done|].
      intros clock _. apply expired_false. by left.
Qed.

End CleanupLaws.

(** ** Sequences of calls *)

Section CallLaws.

Context {V : Type}.
Implicit Types (c : Cache V) (key : string) (item : Item V) (v : iface V).
Implicit Types (op : Call V) (trace : list (Call V)).

Lemma call_config c op :
  defaultExpiration (call c op) = defaultExpiration c /\
  cleanupInterval (call c op) = cleanupInterval c.
Proof.
  destruct op as [key v d now|key now|key|key d now|clock]; simpl;
    try done.
  - by rewrite Get_state.
  - unfold Extend. by destruct (items c !! key).
Qed.

Lemma calls_config c trace :
  defaultExpiration (calls c trace) = defaultExpiration c /\
  cleanupInterval (calls c trace) = cleanupInterval c.
Proof.
  unfold calls. revert c. induction trace as [|op trace IH]; intros c;
    simpl; [done|].
  destruct (IH (call c op)) as [-> ->]. apply call_config.
Qed.

Lemma calls_resolved c trace d : resolved (calls c trace) d = resolved c d.
Proof. unfold resolved. by destruct (calls_config c trace) as [-> _]. Qed.

(** Induction over the entries a sequence of calls can leave: a property
    of entries that holds of the initial entries, of what each [Set] of
    the sequence writes and of what each [Extend] of the sequence makes
    of an entry having it, holds of every entry found at the end. *)
Lemma calls_entry_ind (P : string -> Item V -> Prop) c trace :
  (forall key item, items c !! key = Some item -> P key item) ->
  (forall key v d now,
     CallSet key v d now ∈ trace ->
     P key (mkItem v (if 0 <? resolved c d
                      then UnixNano (Add now (resolved c d)) else 0))) ->
  (forall key d now item,
     CallExtend key d now ∈ trace -> P key item -> 0 < resolved c d ->
     P key (mkItem (value item) (UnixNano (Add now (resolved c d))))) ->
  forall key item, items (calls c trace) !! key = Some item -> P key item.
Proof.
  induction trace as [|op trace IH] using rev_ind;
    intros Hinit Hset Hext key item; [apply Hinit|].
  assert (IH' : forall key item,
            items (calls c trace) !! key = Some item -> P key item).
  { apply IH; [done| |].
    - intros k v d now Hin. apply Hset, elem_of_app. by left.
    - intros k d now it Hin. apply Hext, elem_of_app. by left. }
  unfold calls. rewrite foldl_snoc. fold (calls c trace).
  destruct op as [k v d now|k now|k|k d now|clock]; cbn [call].
  - unfold Set_. simpl. rewrite lookup_insert.
    case_decide as Hk; [|apply IH'].
    subst k. intros [= <-]. rewrite calls_resolved.
    apply Hset, elem_of_app. right. by apply list_elem_of_singleton.
  - rewrite Get_state. apply IH'.
  - unfold Delete. simpl. rewrite lookup_delete.
    case_decide; [done|apply IH'].
  - unfold Extend. destruct (items (calls c trace) !! k) as [it|] eqn:Hk;
      [|apply IH'].
    simpl. rewrite lookup_insert. case_decide as Hkey; [|apply IH'].
    subst k. intros [= <-]. rewrite calls_resolved.
    destruct (Z.ltb_spec 0 (resolved c d)); [|by apply IH'].
    apply Hext; [|by apply IH'|done].
    apply elem_of_app. right. by apply list_elem_of_singleton.
  - rewrite deleteExpiredItems_lookup.
    destruct (items (calls c trace) !! key) as [it|] eqn:Hk; [|done].
    destruct (expired it (clock key)); [done|].
    intros [= <-]. by apply IH'.
Qed.

(** X12: no sequence of calls, in whatever order callers and the cleanup
    goroutine make them, changes the default expiration or the cleanup
    interval of the cache; a zero duration therefore resolves to the
    same default throughout. *)
Theorem calls_keep_configuration c trace :
  defaultExpiration (calls c trace) = defaultExpiration c /\
  cleanupInterval (calls c trace) = cleanupInterval c /\
  forall d, resolved (calls c trace) d = resolved c d.
Proof.
  destruct (calls_config c trace) as [Hd Hi].
  split; [done|]. split; [done|]. intros d. apply calls_resolved.
Qed.

(** X13: the cache invents no values: an entry found under a key after
    any sequence of calls on a new cache holds a value that a [Set] of
    the sequence stored under that very key. *)
Theorem calls_value_provenance dflt interval trace key item :
  items (calls (NewCache dflt interval) trace) !! key = Some item ->
  exists d now, CallSet key (value item) d now ∈ trace.
Proof.
  revert key item.
  apply (calls_entry_ind
           (fun key item => exists d now,
              CallSet key (value item) d now ∈ trace)).
  - intros key item Hitem. simpl in Hitem. by rewrite lookup_empty in Hitem.
  - intros key v d now Hin. simpl. eauto.
  - intros key d now item _ Hitem _. simpl. done.
Qed.

(** X14: every expiration in the cache is 0 or the nanosecond reading of
    [now + d], for the clock reading [now] and the positive resolved
    duration [d] of a [Set] or [Extend] that some call of the sequence
    made on that key. *)
Theorem calls_expiration_provenance dflt interval trace key item :
  items (calls (NewCache dflt interval) trace) !! key = Some item ->
  expiration item = 0 \/
  exists d now,
    ((exists v, CallSet key v d now ∈ trace) \/
     CallExtend key d now ∈ trace) /\
    0 < resolved (NewCache (V:=V) dflt interval) d /\
    expiration item
    = UnixNano (Add now (resolved (NewCache (V:=V) dflt interval) d)).
Proof.
  revert key item.
  apply (calls_entry_ind
           (fun key item =>
              expiration item = 0 \/
              exists d now,
                ((exists v, CallSet key v d now ∈ trace) \/
                 CallExtend key d now ∈ trace) /\
                0 < resolved (NewCache (V:=V) dflt interval) d /\
                expiration item
                = UnixNano
                    (Add now (resolved (NewCache (V:=V) dflt interval) d)))).
  - intros key item Hitem. simpl in Hitem. by rewrite lookup_empty in Hitem.
  - intros key v d now Hin. simpl expiration.
    destruct (Z.ltb_spec 0 (resolved (NewCache (V:=V) dflt interval) d));
      [|by left].
    right. exists d, now. split; [left; by exists v|done].
  - intros key d now item Hin _ Hpos. right. exists d, now.
    split; [by right|done].
Qed.

End CallLaws.

(** ** The request handler *)

Section HandlerLaws.

Context {V : Type}.
Implicit Types (c : Cache V) (host : string) (item : Item V).
Implicit Types (newProxy proxy : V) (tGet tSet : Time).

Lemma sweeps_config (sweeps : list (string -> Time)) c :
  defaultExpiration (foldl deleteExpiredItems c sweeps)
  = defaultExpiration c.
Proof.
  revert c. induction sweeps as [|clock sweeps IH]; intros c; simpl; [done|].
  by rewrite IH.
Qed.

Lemma ProxyRequestHandler_miss c host newProxy tGet tSet :
  (Get c host tGet).1 = nil ->
  ProxyRequestHandler c host newProxy tGet tSet
  = (newProxy, Set_ c host (dyn newProxy) 0 tSet).
Proof.
  intros Hmiss. unfold ProxyRequestHandler.
  pose proof (Get_state c host tGet) as Hstate.
  destruct (Get c host tGet) as [cached c']. simpl in *. by subst.
Qed.

Lemma ProxyRequestHandler_hit c host newProxy proxy tGet tSet :
  (Get c host tGet).1 = dyn proxy ->
  ProxyRequestHandler c host newProxy tGet tSet = (proxy, c).
Proof.
  intros Hhit. unfold ProxyRequestHandler.
  pose proof (Get_state c host tGet) as Hstate.
  destruct (Get c host tGet) as [cached c']. simpl in *. by subst.
Qed.

(** X15: whatever the cache held, after a request the host has an entry
    and its value is the proxy that served the request. *)
Theorem ProxyRequestHandler_caches c host newProxy tGet tSet :
  exists item,
    items (ProxyRequestHandler c host newProxy tGet tSet).2 !! host
      = Some item /\
    value item = dyn (ProxyRequestHandler c host newProxy tGet tSet).1.
Proof.
  destruct (Get c host tGet).1 as [|proxy] eqn:Hget.
  - rewrite ProxyRequestHandler_miss by done. simpl fst. simpl snd.
    rewrite Set_lookup. by eexists.
  - rewrite (ProxyRequestHandler_hit c host newProxy proxy) by done.
    simpl. rewrite Get_result in Hget.
    destruct (items c !! host) as [item|]; [|done].
    exists item. split; [done|].
    by destruct (expired item tGet).
Qed.

(** X16: a request that misses builds a proxy and stores it under the
    default expiration; when that default is positive, every request
    for the host read no later than [tSet + defaultExpiration] is served
    by that same proxy and leaves the cache as it is: the proxy offered
    anew is dropped. *)
Theorem ProxyRequestHandler_reuses c host proxy1 proxy2
    tGet tSet tGet' tSet' :
  (Get c host tGet).1 = nil ->
  0 < defaultExpiration c ->
  UnixNano tGet' <= UnixNano (Add tSet (defaultExpiration c)) ->
  ProxyRequestHandler c host proxy1 tGet tSet
    = (proxy1, Set_ c host (dyn proxy1) 0 tSet) /\
  ProxyRequestHandler (Set_ c host (dyn proxy1) 0 tSet) host proxy2
    tGet' tSet'
    = (proxy1, Set_ c host (dyn proxy1) 0 tSet).
Proof.
  intros Hmiss Hpos Hlive. split; [by apply ProxyRequestHandler_miss|].
  apply ProxyRequestHandler_hit.
  rewrite Get_result, Set_lookup, resolved_zero.
  destruct (Z.ltb_spec 0 (defaultExpiration c)); [|lia].
  assert (expired (mkItem (dyn proxy1)
                     (UnixNano (Add tSet (defaultExpiration c)))) tGet'
          = false) as ->; [|done].
  apply expired_false. simpl. lia.
Qed.

(** X17: once the stored proxy has expired, the next request for the
    host is served by a new proxy, which takes the place of the old one
    in the cache whether or not a sweep pass removed it first. *)
Theorem ProxyRequestHandler_rebuilds c host proxy1 proxy2
    tSet tGet' tSet' (sweeps : list (string -> Time)) :
  0 < defaultExpiration c ->
  0 < UnixNano (Add tSet (defaultExpiration c)) < UnixNano tGet' ->
  (ProxyRequestHandler
     (foldl deleteExpiredItems (Set_ c host (dyn proxy1) 0 tSet) sweeps)
     host proxy2 tGet' tSet').1 = proxy2 /\
  items (ProxyRequestHandler
     (foldl deleteExpiredItems (Set_ c host (dyn proxy1) 0 tSet) sweeps)
     host proxy2 tGet' tSet').2 !! host
  = Some (mkItem (dyn proxy2) (UnixNano (Add tSet' (defaultExpiration c)))).
Proof.
  intros Hpos Hdue.
  set (c1 := foldl deleteExpiredItems (Set_ c host (dyn proxy1) 0 tSet)
               sweeps).
  assert (Hmiss : (Get c1 host tGet').1 = nil).
  { rewrite Get_result. unfold c1.
    destruct (sweeps_lookup sweeps (Set_ c host (dyn proxy1) 0 tSet) host)
      as [->| ->]; [done|].
    rewrite Set_lookup, resolved_zero.
    destruct (Z.ltb_spec 0 (defaultExpiration c)); [|lia].
    assert (expired (mkItem (dyn proxy1)
                       (UnixNano (Add tSet (defaultExpiration c)))) tGet'
            = true) as ->; [|done].
    apply expired_true. simpl. lia. }
  rewrite ProxyRequestHandler_miss by done. split; [done|].
  simpl snd. rewrite Set_lookup, resolved_zero.
  assert (Hdflt : defaultExpiration c1 = defaultExpiration c)
    by (unfold c1; by rewrite sweeps_config).
  rewrite Hdflt. by destruct (Z.ltb_spec 0 (defaultExpiration c)); [|lia].
Qed.

End HandlerLaws.

(** ** The further laws at concrete caches *)

(** Two writes to ["a"], and a write to ["a"] swapped with one to ["b"]. *)
Lemma Set_last_write_wins_witness :
  Set_ (Set_ hosts "a" (dyn "x") 0 1) "a" (dyn "y") 7 2
    = Set_ hosts "a" (dyn "y") 7 2 /\
  Set_ (Set_ hosts "a" (dyn "x") 0 1) "b" (dyn "y") 7 2
    = Set_ (Set_ hosts "b" (dyn "y") 7 2) "a" (dyn "x") 0 1.
Proof.
  destruct (Set_last_write_wins hosts "a" (dyn "x") 0 1 (dyn "y") 7 2)
    as [Hsame Hother].
  split; [exact Hsame|]. apply Hother. discriminate.
Defined.

(** Writes to ["b"] seen from ["a"]. *)
Lemma Get_other_key_witness :
  "a" <> "b" /\
  (Get (Set_ brief "b" (dyn "y") 8 1) "a" 3).1 = (Get brief "a" 3).1 /\
  (Get (Extend brief "b" 8 1) "a" 3).1 = (Get brief "a" 3).1 /\
  (Get (Delete brief "b") "a" 3).1 = (Get brief "a" 3).1.
Proof.
  assert (Hne : "a" <> "b") by discriminate.
  split; [exact Hne|].
  exact (Get_other_key brief "b" "a" (dyn "y") 8 1 3 Hne).
Defined.

(** Setting and deleting a key the cache did not hold. *)
Lemma Delete_after_Set_witness :
  items brief !! "b" = None /\
  Delete (Set_ brief "b" (dyn "y") 8 1) "b" = brief.
Proof.
  assert (Habsent : items brief !! "b" = None) by (vm_compute; reflexivity).
  split; [exact Habsent|].
  exact (proj2 (Delete_after_Set brief "b" (dyn "y") 8 1) Habsent).
Defined.

(** At instant 9 the entry of [brief] (expiration 5) reads as absent;
    extended by 10ns at that instant it reads as ["x"] again. *)
Lemma Extend_revives_witness :
  (Get brief "a" 9).1 = nil /\
  (Get (Extend brief "a" 10 9) "a" 15).1 = dyn "x".
Proof.
  split; [vm_compute; reflexivity|].
  apply (Extend_revives brief "a" (mkItem (dyn "x") 5) 10 9 15).
  - vm_compute; reflexivity.
  - vm_compute; reflexivity.
  - vm_compute; discriminate.
Defined.

(** Absent at instant 6, hence absent at instant 100 after a sweep at 50. *)
Lemma Get_absent_stays_absent_witness :
  (Get brief "a" 6).1 = nil /\
  UnixNano 6 <= UnixNano 100 /\
  (Get (foldl deleteExpiredItems brief [fun _ => 50]) "a" 100).1 = nil.
Proof.
  assert (H1 : (Get brief "a" 6).1 = nil) by (vm_compute; reflexivity).
  assert (H2 : UnixNano 6 <= UnixNano 100) by (vm_compute; discriminate).
  split; [exact H1|]. split; [exact H2|].
  exact (Get_absent_stays_absent brief "a" 6 100 [fun _ => 50] H1 H2).
Defined.

(** A sweep at instant 7 seen by a reader at instant 8. *)
Lemma Get_after_sweep_witness :
  UnixNano 7 <= UnixNano 8 /\
  (Get (deleteExpiredItems brief (fun _ => 7)) "a" 8).1 = (Get brief "a" 8).1.
Proof.
  assert (H1 : UnixNano 7 <= UnixNano 8) by (vm_compute; discriminate).
  split; [exact H1|].
  exact (Get_after_sweep brief (fun _ => 7) "a" 8 H1).
Defined.

(** [pair] swept at instant 6 and again at instant 10. *)
Lemma deleteExpiredItems_twice_witness :
  deleteExpiredItems (deleteExpiredItems pair (fun _ => 6)) (fun _ => 10)
  = deleteExpiredItems pair (fun _ => 10).
Proof.
  apply (deleteExpiredItems_twice pair (fun _ => 6) (fun _ => 10)).
  intros key. vm_compute. discriminate.
Defined.


(** A cache made with a zero cleanup interval, and [pair] after ticks at
    instants 7 and 8 and a stop: ["b"] (expiration 9) is still there. *)
Lemma startCleanupTimer_effect_witness :
  startCleanupTimer (NewCache (V:=string) 100 0) [Tick (fun _ => 7)] = None /\
  exists c',
    startCleanupTimer pair [Tick (fun _ => 7); Tick (fun _ => 8); Stop]
      = Some c' /\
    items c' !! "b" = Some (mkItem (dyn "y") 9).
Proof.
  split.
  - apply (proj1 (startCleanupTimer_effect (NewCache (V:=string) 100 0)
                    [Tick (fun _ => 7)])).
    vm_compute; discriminate.
  - destruct (proj2 (startCleanupTimer_effect pair
                       [Tick (fun _ => 7); Tick (fun _ => 8); Stop]))
      as (c' & Hrun & _ & _ & _ & Hkept & _); [vm_compute; reflexivity|].
    exists c'. split; [exact Hrun|].
    apply Hkept; [vm_compute; reflexivity|].
    intros clock Hin.
    apply elem_of_cons in Hin as [[= ->]|Hin]; [vm_compute; reflexivity|].
    apply elem_of_cons in Hin as [[= ->]|Hin]; [vm_compute; reflexivity|].
    apply elem_of_cons in Hin as [Heq|Hin]; [discriminate Heq|].
    by apply elem_of_nil in Hin.
Defined.

(** A sequence of calls on a new cache that leaves ["a"] extended. *)
Lemma calls_value_provenance_witness :
  exists d now,
    CallSet "a" (dyn "x") d now
    ∈ [CallSet "a" (dyn "x") 0 1000; CallSet "b" (dyn "y") 0 1200;
       CallSweep (fun _ => 1500); CallExtend "a" 500 2000;
       CallDelete "b"].
Proof.
  apply (calls_value_provenance 1000 50
           [CallSet "a" (dyn "x") 0 1000; CallSet "b" (dyn "y") 0 1200;
            CallSweep (fun _ => 1500); CallExtend "a" 500 2000;
            CallDelete "b"]
           "a" (mkItem (dyn "x") 2500)).
  vm_compute; reflexivity.
Defined.

(** The same sequence: the expiration 2500 of ["a"] is [2000 + 500]. *)
Lemma calls_expiration_provenance_witness :
  expiration (mkItem (dyn "x") 2500) = 0 \/
  exists d now,
    ((exists v, CallSet "a" v d now
        ∈ [CallSet "a" (dyn "x") 0 1000; CallSet "b" (dyn "y") 0 1200;
           CallSweep (fun _ => 1500); CallExtend "a" 500 2000;
           CallDelete "b"]) \/
     CallExtend "a" d now
       ∈ [CallSet "a" (dyn "x") 0 1000; CallSet "b" (dyn "y") 0 1200;
          CallSweep (fun _ => 1500); CallExtend "a" 500 2000;
          CallDelete "b"]) /\
    0 < resolved (NewCache (V:=string) 1000 50) d /\
    expiration (mkItem (dyn "x") 2500)
    = UnixNano (Add now (resolved (NewCache (V:=string) 1000 50) d)).
Proof.
  apply (calls_expiration_provenance 1000 50
           [CallSet "a" (dyn "x") 0 1000; CallSet "b" (dyn "y") 0 1200;
            CallSweep (fun _ => 1500); CallExtend "a" 500 2000;
            CallDelete "b"]
           "a" (mkItem (dyn "x") 2500)).
  vm_compute; reflexivity.
Defined.

(** Two requests for one host, 1s and 200s after the epoch, under the
    five minutes of [main]: the second is served by the first proxy. *)
Lemma ProxyRequestHandler_reuses_witness :
  ProxyRequestHandler proxyCache "example.com" "proxy1"
    1000000000 1000000100
    = ("proxy1",
       Set_ proxyCache "example.com" (dyn "proxy1") 0 1000000100) /\
  ProxyRequestHandler
    (Set_ proxyCache "example.com" (dyn "proxy1") 0 1000000100)
    "example.com" "proxy2" 200000000000 200000000100
    = ("proxy1",
       Set_ proxyCache "example.com" (dyn "proxy1") 0 1000000100).
Proof.
  apply (ProxyRequestHandler_reuses proxyCache "example.com"
           "proxy1" "proxy2" 1000000000 1000000100
           200000000000 200000000100).
  - vm_compute; reflexivity.
  - vm_compute; reflexivity.
  - vm_compute; discriminate.
Defined.

(** A request 400s after the epoch, past the five minutes and past a
    sweep at 330s: it is served by the second proxy. *)
Lemma ProxyRequestHandler_rebuilds_witness :
  (ProxyRequestHandler
     (foldl deleteExpiredItems
        (Set_ proxyCache "example.com" (dyn "proxy1") 0 1000000100)
        [fun _ => 330000000000])
     "example.com" "proxy2" 400000000000 400000000100).1 = "proxy2" /\
  items (ProxyRequestHandler
     (foldl deleteExpiredItems
        (Set_ proxyCache "example.com" (dyn "proxy1") 0 1000000100)
        [fun _ => 330000000000])
     "example.com" "proxy2" 400000000000 400000000100).2 !! "example.com"
  = Some (mkItem (dyn "proxy2")
            (UnixNano (Add 400000000100 (defaultExpiration proxyCache)))).
Proof.
  apply (ProxyRequestHandler_rebuilds proxyCache "example.com"
           "proxy1" "proxy2" 1000000100 400000000000 400000000100
           [fun _ => 330000000000]).
  - vm_compute; reflexivity.
  - vm_compute. split; reflexivity.
Defined.
